(** * LF pulses: the 11-byte pulse codec and its hash chain

    A shallow embedding of [pkg/lf/pulse.go] (package [lf]) together with the
    two sentinel errors of [pkg/lf/errors.go] it returns.

    Conventions.
    - Go's unsigned integers ([uint64], and [uint] on a 64-bit platform) are
      binary naturals [N]; every operation that can leave the 64-bit range
      has its wrap-around written out.
    - [[]byte] is [list byte] over the 256-constructor [Byte.byte]; a slice
      write is a function returning the updated buffer.
    - The running SHA-256 state is the list of bytes written so far; the
      digest function itself, the chain primitive [th64n], the constant
      [RecordMaxPulseSpan] and the owner's [PrivateHash] live outside
      [pulse.go] and are parameters of the development. *)

From Stdlib Require Import NArith ZArith Lia List String Ascii.
From Stdlib Require Import DecimalString DecimalZ DecimalPos.
From Stdlib Require Import Strings.Byte.
From stdpp Require Import list.
Import ListNotations.

Local Open Scope N_scope.

(** ** Errors ([errors.go]) *)

(** [type Err string] *)
Definition Err := string.

Definition ErrInvalidParameter : Err := "invalid parameter"%string.
Definition ErrPrivateKeyRequired : Err := "private key required"%string.

(** ** Machine integers and [encoding/binary] *)

Definition two64 : N := 2 ^ 64.

(** [a - b] on [uint]: subtraction modulo 2^64. *)
Definition uint_sub (a b : N) : N := (a + two64 - b mod two64) mod two64.

(** The conversion [byte(x)]: the low eight bits of [x]. *)
Definition byte_of_N (x : N) : byte :=
  match Byte.of_N (x mod 256) with
  | Some b => b
  | None => x00
  end.

(** The conversions [uint(b)] and [uint64(b)]. *)
Definition uint (b : byte) : N := Byte.to_N b.

(** [b[i]] on a slice.  Go panics when [i] is out of range; every use below
    sits behind a length test or reads a buffer of known size. *)
Definition at_ (b : list byte) (i : nat) : byte := nth i b x00.

(** [binary.BigEndian.Uint64(b)].  Go panics on fewer than eight bytes; the
    two call sites pass exactly 8 and 32 bytes (see [Key_slice_length] and
    [NewPulse_digest_length]). *)
Definition BigEndian_Uint64 (b : list byte) : N :=
  N.lor (uint (at_ b 7))
  (N.lor (N.shiftl (uint (at_ b 6)) 8)
  (N.lor (N.shiftl (uint (at_ b 5)) 16)
  (N.lor (N.shiftl (uint (at_ b 4)) 24)
  (N.lor (N.shiftl (uint (at_ b 3)) 32)
  (N.lor (N.shiftl (uint (at_ b 2)) 40)
  (N.lor (N.shiftl (uint (at_ b 1)) 48)
         (N.shiftl (uint (at_ b 0)) 56))))))).

(** [binary.BigEndian.PutUint64(b[0:8], v)]: the buffer [b] after the write
    through its sub-slice [b[0:8]], which shares the storage of [b].  The
    first eight bytes are replaced, the rest of the buffer is kept. *)
Definition BigEndian_PutUint64 (b : list byte) (v : N) : list byte :=
  <[7%nat := byte_of_N v]>
  (<[6%nat := byte_of_N (N.shiftr v 8)]>
  (<[5%nat := byte_of_N (N.shiftr v 16)]>
  (<[4%nat := byte_of_N (N.shiftr v 24)]>
  (<[3%nat := byte_of_N (N.shiftr v 32)]>
  (<[2%nat := byte_of_N (N.shiftr v 40)]>
  (<[1%nat := byte_of_N (N.shiftr v 48)]>
  (<[0%nat := byte_of_N (N.shiftr v 56)]> b))))))).

(** ** Owners *)

(** Modelled from the spec: the [Owner] struct is declared outside
    [pulse.go].  Of an owner the pulse code only tests whether private key
    material is present ([owner.Private == nil]) and asks for its
    private-material hash; the key material itself is kept opaque. *)
Record Owner := {
  Private : option (list byte);
  Public : list byte
}.

(** ** Pulses *)

(** [const PulseSize = 11] *)
Definition PulseSize : nat := 11.

(** [type Pulse Blob], a byte slice. *)
Definition Pulse := list byte.

(** [func (p Pulse) Key() uint64] *)
Definition Key (p : Pulse) : N :=
  if negb (length p =? PulseSize)%nat then 0
  else BigEndian_Uint64 (take 8 p).

Section Pulses.

(** The span constant of the record subsystem, an unsigned number. *)
Variable RecordMaxPulseSpan : N.

(** The chain primitive [th64n(x uint64, n uint) uint64]. *)
Variable th64n : N -> N -> N.

(** SHA-256 as a function from the bytes written to the digest. *)
Variable sha256_digest : list byte -> list byte.

(** [func (o *Owner) PrivateHash()], returning a fixed-size array. *)
Variable PrivateHash : Owner -> list byte.

(** [func (p Pulse) Minutes() uint] *)
Definition Minutes (p : Pulse) : N :=
  if negb (length p =? PulseSize)%nat then 0
  else
    let minutes := N.shiftl (uint (at_ p 8)) 16 in
    let minutes := N.lor minutes (N.shiftl (uint (at_ p 9)) 8) in
    let minutes := N.lor minutes (uint (at_ p 10)) in
    if RecordMaxPulseSpan <? minutes then RecordMaxPulseSpan
    else minutes.

(** [func (p Pulse) Token() uint64] *)
Definition Token (p : Pulse) : N := th64n (Key p) (Minutes p).

(** *** The hasher ([hash.Hash] as returned by [sha256.New]) *)

(** The state of a running hash is the message written so far. *)
Definition hasher := list byte.

Definition sha256_New : hasher := [].

(** [h.Write(b)] *)
Definition Write (h : hasher) (b : list byte) : hasher := h ++ b.

(** [h.Sum(b)]: [b] followed by the digest of what was written. *)
Definition Sum (h : hasher) (b : list byte) : list byte :=
  b ++ sha256_digest h.

(** *** [NewPulse] *)

(** The selector loop
    [for i := 0; i < len(selectorNames); i++ { ... }],
    entered at index [i] with [n] iterations left; the state is the
    hasher and the scratch buffer [tmp]. *)
Fixpoint selector_loop (selectorNames : list (list byte))
    (selectorOrdinals : list N) (n i : nat) (h : hasher)
    (tmp : list byte) : hasher * list byte :=
  match n with
  | O => (h, tmp)
  | S n' =>
      let h := Write h (nth i selectorNames []) in
      let '(h, tmp) :=
        if (i <? length selectorOrdinals)%nat then
          let tmp := BigEndian_PutUint64 tmp (nth i selectorOrdinals 0) in
          (Write h (take 8 tmp), tmp)
        else (h, tmp) in
      selector_loop selectorNames selectorOrdinals n' (S i) h tmp
  end.

(** Everything [NewPulse] feeds to the hasher, in order. *)
Definition pulse_hasher (owner : Owner) (selectorNames : list (list byte))
    (selectorOrdinals : list N) (recordTimestamp : N) : hasher :=
  let tmp := repeat x00 32 in
  let pulseTokenHasher := sha256_New in
  let '(pulseTokenHasher, tmp) :=
    selector_loop selectorNames selectorOrdinals
      (length selectorNames) 0 pulseTokenHasher tmp in
  let tmp := BigEndian_PutUint64 tmp recordTimestamp in
  let pulseTokenHasher := Write pulseTokenHasher (take 8 tmp) in
  let ophash := PrivateHash owner in
  Write pulseTokenHasher ophash.

(** The anchor seed:
    [binary.BigEndian.Uint64(pulseTokenHasher.Sum(tmp[:0]))]. *)
Definition pulse_seed (owner : Owner) (selectorNames : list (list byte))
    (selectorOrdinals : list N) (recordTimestamp : N) : N :=
  BigEndian_Uint64
    (Sum (pulse_hasher owner selectorNames selectorOrdinals recordTimestamp)
         []).

(** [func NewPulse(owner, selectorNames, selectorOrdinals,
     recordTimestamp, minutes) (p Pulse, err error)].
    The pair is Go's pair of named results: [p] stays the nil slice on
    both early returns, [err] stays nil on the last one. *)
Definition NewPulse (owner : Owner) (selectorNames : list (list byte))
    (selectorOrdinals : list N) (recordTimestamp : N) (minutes : N)
    : Pulse * option Err :=
  match Private owner with
  | None => ([], Some ErrPrivateKeyRequired)
  | Some _ =>
      if RecordMaxPulseSpan <? minutes then ([], Some ErrInvalidParameter)
      else
        let pbuf := repeat x00 PulseSize in
        let p := pbuf in
        let p :=
          BigEndian_PutUint64 p
            (th64n
               (pulse_seed owner selectorNames selectorOrdinals
                  recordTimestamp)
               (uint_sub RecordMaxPulseSpan minutes)) in
        let p := <[8%nat := byte_of_N (N.shiftr minutes 16)]> p in
        let p := <[9%nat := byte_of_N (N.shiftr minutes 8)]> p in
        let p := <[10%nat := byte_of_N minutes]> p in
        (p, None)
  end.

End Pulses.

(** ** Big-endian numbers, as the specification words them *)

(** The [n] low-order base-256 digits of [v], most significant first:
    "[v] as [n] big-endian bytes". *)
Fixpoint be_encode (n : nat) (v : N) : list byte :=
  match n with
  | O => []
  | S n' => be_encode n' (v / 256) ++ [byte_of_N v]
  end.

(** The number whose big-endian digits are the bytes of [l]. *)
Definition be_decode (l : list byte) : N :=
  fold_left (fun acc b => acc * 256 + uint b) l 0.

(** ** The anchor seed, as the specification words it *)

(** The bytes contributed by the selectors: for each selector name, in
    order, the name followed by the ordinal of the same index as eight
    big-endian bytes when there is such an ordinal, and by nothing when the
    ordinals have run out. *)
Fixpoint spec_selector_bytes (selectorNames : list (list byte))
    (selectorOrdinals : list N) : list byte :=
  match selectorNames with
  | [] => []
  | name :: names =>
      match selectorOrdinals with
      | [] => name ++ spec_selector_bytes names []
      | ordinal :: ordinals =>
          name ++ be_encode 8 ordinal ++ spec_selector_bytes names ordinals
      end
  end.

(** The hashed message: the selector bytes, then the record timestamp as
    eight big-endian bytes, then the owner's private-material hash. *)
Definition spec_seed_message (ophash : list byte)
    (selectorNames : list (list byte)) (selectorOrdinals : list N)
    (recordTimestamp : N) : list byte :=
  spec_selector_bytes selectorNames selectorOrdinals
  ++ be_encode 8 recordTimestamp ++ ophash.

(** The seed [S]: the first eight bytes of the digest of that message, read
    as a big-endian number. *)
Definition spec_seed (digest : list byte -> list byte) (ophash : list byte)
    (selectorNames : list (list byte)) (selectorOrdinals : list N)
    (recordTimestamp : N) : N :=
  be_decode
    (take 8
       (digest
          (spec_seed_message ophash selectorNames selectorOrdinals
             recordTimestamp))).

(** The 24-bit big-endian number held in bytes 8..10 of a pulse. *)
Definition raw_minutes (p : Pulse) : N :=
  uint (at_ p 8) * 65536 + uint (at_ p 9) * 256 + uint (at_ p 10).

(** ** What is assumed of the parameters *)

(** The composition law [chain(chain(x,a),b) = chain(x,a+b)]. *)
Definition chain_composes (chain : N -> N -> N) : Prop :=
  forall x a b, chain (chain x a) b = chain x (a + b).

(** The identity [chain(x,0) = x]. *)
Definition chain_identity (chain : N -> N -> N) : Prop :=
  forall x, chain x 0 = x.

(** The chain primitive returns a [uint64] when given one. *)
Definition chain_uint64 (chain : N -> N -> N) : Prop :=
  forall x n, x < two64 -> chain x n < two64.

(** The span constant fits the 24-bit minutes field of a pulse. *)
Definition span_fits_minutes (span : N) : Prop := span < 2 ^ 24.

(** [sha256.Size = 32]: every digest has 32 bytes. *)
Definition digest_size_32 (digest : list byte -> list byte) : Prop :=
  forall msg, length (digest msg) = 32%nat.

(** ** Concrete parameters for closed instances *)

(** Modelled from the spec: [th64n] is defined outside [pulse.go]; the
    chain engine "applies a fixed, pure, one-way 64-bit mixing transform to
    [x] exactly [n] times".  [iterate_chain step] is that engine over the
    transform [step]. *)
Definition iterate_chain (step : N -> N) (x n : N) : N := N.iter n step x.

(** A 64-bit multiply-and-fold mixing step. *)
Definition mix64 (x : N) : N :=
  (N.lxor x (N.shiftr x 33) * 0xff51afd7ed558ccd) mod two64.

(** A stand-in digest with 32-byte output: the message, zero-padded or cut
    to 32 bytes. *)
Definition pad_digest (msg : list byte) : list byte :=
  take 32 (msg ++ repeat x00 32).

(** A stand-in private-material hash: the key material itself. *)
Definition key_bytes (o : Owner) : list byte :=
  match Private o with
  | Some k => k
  | None => []
  end.

(** One year in minutes. *)
Definition one_year : N := 525600.

Definition signing_owner : Owner :=
  {| Private := Some [x01; x02; x03]; Public := [xaa] |}.

Definition public_owner : Owner :=
  {| Private := None; Public := [xaa] |}.

(** The pulse code at these parameters. *)
Definition year_pulse := NewPulse one_year (iterate_chain mix64) pad_digest key_bytes.
Definition year_seed := pulse_seed pad_digest key_bytes.
Definition year_token := Token one_year (iterate_chain mix64).
Definition year_minutes := Minutes one_year.

(** Two selectors, the first with an ordinal; a timestamp. *)
Definition sample_names : list (list byte) := [[x61; x62]; [x63]].
Definition sample_ordinals : list N := [7].
Definition sample_timestamp : N := 1000.

(** Two 11-byte pulses: minute bytes all ones, and minute bytes 258. *)
Definition over_span_pulse : Pulse :=
  [x00; x00; x00; x00; x00; x00; x00; x2a; xff; xff; xff].

Definition in_span_pulse : Pulse :=
  [x00; x00; x00; x00; x00; x00; x00; x2a; x00; x01; x02].

(** ** The error types of [errors.go] *)

(** [func (e Err) Error() string] *)
Definition Err_Error (e : Err) : string := e.

(** The other general errors. *)
Definition ErrInvalidPublicKey : Err := "invalid public key"%string.
Definition ErrInvalidPrivateKey : Err := "invalid private key"%string.
Definition ErrInvalidObject : Err := "invalid object"%string.
Definition ErrUnsupportedType : Err := "unsupported type"%string.
Definition ErrUnsupportedCurve : Err :=
  "unsupported ECC curve (for this purpose)"%string.
Definition ErrOutOfRange : Err := "parameter out of range"%string.
Definition ErrWharrgarblFailed : Err :=
  "Wharrgarbl proof of work algorithm failed (out of memory?)"%string.
Definition ErrIO : Err := "I/O error"%string.
Definition ErrIncorrectKey : Err := "incorrect key"%string.
Definition ErrAlreadyConnected : Err := "already connected"%string.
Definition ErrRecordNotFound : Err := "record not found"%string.
Definition ErrRecordIsNewer : Err := "record is newer than timestamp"%string.
Definition ErrPulseSpanExeceeded : Err :=
  "pulse is more than one year after record"%string.
Definition ErrDuplicateRecord : Err := "duplicate record"%string.
Definition ErrInvalidMessageSize : Err := "message size invalid"%string.
Definition ErrQueryRequiresSelectors : Err :=
  "query requires at least one selector"%string.
Definition ErrQueryInvalidSortOrder : Err :=
  "invalid sort order value"%string.
Definition ErrAlreadyMounted : Err := "mount point already mounted"%string.

(** The [const] block of general errors, in source order. *)
Definition general_errors : list Err :=
  [ErrInvalidPublicKey; ErrInvalidPrivateKey; ErrInvalidParameter;
   ErrInvalidObject; ErrUnsupportedType; ErrUnsupportedCurve; ErrOutOfRange;
   ErrWharrgarblFailed; ErrIO; ErrIncorrectKey; ErrAlreadyConnected;
   ErrRecordNotFound; ErrRecordIsNewer; ErrPulseSpanExeceeded;
   ErrDuplicateRecord; ErrPrivateKeyRequired; ErrInvalidMessageSize;
   ErrQueryRequiresSelectors; ErrQueryInvalidSortOrder; ErrAlreadyMounted].

(** [type ErrRecord string] *)
Definition ErrRecord := string.

(** [func (e ErrRecord) Error() string] *)
Definition ErrRecord_Error (e : ErrRecord) : string := e.

Definition ErrRecordInvalid : ErrRecord := "record invalid"%string.
Definition ErrRecordOwnerSignatureCheckFailed : ErrRecord :=
  "owner signature check failed"%string.
Definition ErrRecordInsufficientWork : ErrRecord :=
  "insufficient work to pay for this record"%string.
Definition ErrRecordNotApproved : ErrRecord :=
  "record not currently approved (via proof of work and/or certificates)"%string.
Definition ErrRecordInsufficientLinks : ErrRecord :=
  "insufficient links"%string.
Definition ErrRecordTooManyLinks : ErrRecord := "too many links"%string.
Definition ErrRecordInvalidLinks : ErrRecord :=
  "links must be sorted and unique"%string.
Definition ErrRecordTooManySelectors : ErrRecord :=
  "too many selectors"%string.
Definition ErrRecordUnsupportedAlgorithm : ErrRecord :=
  "unsupported algorithm or type"%string.
Definition ErrRecordTooLarge : ErrRecord := "record too large"%string.
Definition ErrRecordValueTooLarge : ErrRecord :=
  "record value too large"%string.
Definition ErrRecordViolatesSpecialRelativity : ErrRecord :=
  "record timestamp too far in the future"%string.
Definition ErrRecordTooOld : ErrRecord :=
  "record older than network timestamp floor"%string.
Definition ErrRecordCertificateInvalid : ErrRecord :=
  "certificate invalid"%string.
Definition ErrRecordCertificateRequired : ErrRecord :=
  "certificate required"%string.
Definition ErrRecordProhibited : ErrRecord :=
  "record administratively prohibited"%string.

(** The [const] block of record errors, in source order. *)
Definition record_errors : list ErrRecord :=
  [ErrRecordInvalid; ErrRecordOwnerSignatureCheckFailed;
   ErrRecordInsufficientWork; ErrRecordNotApproved;
   ErrRecordInsufficientLinks; ErrRecordTooManyLinks; ErrRecordInvalidLinks;
   ErrRecordTooManySelectors; ErrRecordUnsupportedAlgorithm;
   ErrRecordTooLarge; ErrRecordValueTooLarge;
   ErrRecordViolatesSpecialRelativity; ErrRecordTooOld;
   ErrRecordCertificateInvalid; ErrRecordCertificateRequired;
   ErrRecordProhibited].

(** The verb [%d] of [fmt.Sprintf] on an [int]: the decimal numeral, with a
    leading minus sign for a negative number. *)
Definition Sprintf_d (z : Z) : string := NilZero.string_of_int (Z.to_int z).

(** [type ErrDatabase struct] *)
Record ErrDatabase := {
  ErrCode : Z;
  ErrMessage : string
}.

(** [func (e ErrDatabase) Error() string]:
    [fmt.Sprintf("database error: %d (%s)", e.ErrCode, e.ErrMessage)]. *)
Definition ErrDatabase_Error (e : ErrDatabase) : string :=
  ("database error: " ++ Sprintf_d (ErrCode e) ++ " (" ++ ErrMessage e
   ++ ")")%string.

(** [type ErrAPI struct] *)
Record ErrAPI := {
  Code : Z;
  Message : string;
  ErrTypeName : string
}.

(** [func (e ErrAPI) Error() string] *)
Definition ErrAPI_Error (e : ErrAPI) : string :=
  if (0 <? String.length (ErrTypeName e))%nat then
    (Sprintf_d (Code e) ++ ":" ++ ErrTypeName e ++ ":" ++ Message e)%string
  else (Sprintf_d (Code e) ++ ":" ++ Message e)%string.

(** ** Auxiliary notions for the statements *)

(** [c] occurs in [s]. *)
Fixpoint has_char (c : ascii) (s : string) : bool :=
  match s with
  | EmptyString => false
  | String a s' => Ascii.eqb a c || has_char c s'
  end.

(** No two strings of the list are equal. *)
Fixpoint all_distinct (l : list string) : bool :=
  match l with
  | [] => true
  | x :: r => negb (existsb (String.eqb x) r) && all_distinct r
  end.

(** ** Bytes and machine words *)

Lemma uint_lt (b : byte) : uint b < 256.
Proof. unfold uint. pose proof (Byte.to_N_bounded b). lia. Qed.

Lemma uint_byte_of_N (x : N) : uint (byte_of_N x) = x mod 256.
Proof.
  unfold uint, byte_of_N.
  destruct (Byte.of_N (x mod 256)) as [b|] eqn:E.
  - now apply Byte.to_of_N.
  - apply Byte.of_N_None_iff in E.
    pose proof (N.mod_upper_bound x 256). lia.
Qed.

Lemma byte_of_N_uint (b : byte) : byte_of_N (uint b) = b.
Proof.
  unfold byte_of_N, uint.
  rewrite N.mod_small by apply uint_lt.
  now rewrite Byte.of_to_N.
Qed.

Lemma byte_of_N_mod (x : N) : byte_of_N (x mod 256) = byte_of_N x.
Proof. unfold byte_of_N. now rewrite N.Div0.mod_mod. Qed.

(** A number below [2^s] has no bit in common with a multiple of [2^s]. *)
Lemma land_shiftl_small (a b s : N) :
  a < 2 ^ s -> N.land (N.shiftl b s) a = 0.
Proof.
  intros Ha. apply N.bits_inj. intros n.
  rewrite N.land_spec, N.bits_0.
  destruct (N.lt_ge_cases n s) as [Hn|Hn].
  - now rewrite N.shiftl_spec_low.
  - rewrite <- (N.mod_small a (2 ^ s)) by assumption.
    rewrite N.mod_pow2_bits_high by assumption.
    apply andb_false_r.
Qed.

Lemma lor_shiftl_small (a b s : N) :
  a < 2 ^ s -> N.lor (N.shiftl b s) a = b * 2 ^ s + a.
Proof.
  intros Ha.
  rewrite <- N.lxor_lor by now apply land_shiftl_small.
  rewrite <- N.add_nocarry_lxor by now apply land_shiftl_small.
  now rewrite N.shiftl_mul_pow2.
Qed.

(** One step of Horner's scheme on a shifted accumulator. *)
Lemma lor_horner (x y s : N) :
  x < 256 ->
  N.lor (N.shiftl x s) (N.shiftl y (s + 8)) = N.shiftl (y * 256 + x) s.
Proof.
  intros Hx.
  rewrite (N.add_comm s 8), <- N.shiftl_shiftl, <- N.shiftl_lor.
  f_equal. rewrite N.lor_comm. now apply lor_shiftl_small.
Qed.

Lemma be_decode_snoc (l : list byte) (b : byte) :
  be_decode (l ++ [b]) = be_decode l * 256 + uint b.
Proof. unfold be_decode. now rewrite fold_left_app. Qed.

Lemma be_decode_lt (l : list byte) : be_decode l < 256 ^ N.of_nat (length l).
Proof.
  induction l as [|b l IH] using rev_ind; [reflexivity|].
  rewrite be_decode_snoc, length_app, Nat.add_comm. cbn [length Nat.add].
  rewrite Nat2N.inj_succ, N.pow_succ_r'.
  pose proof (uint_lt b). nia.
Qed.

Lemma length_be_encode (n : nat) (v : N) : length (be_encode n v) = n.
Proof.
  revert v. induction n as [|n IH]; intros v; cbn; [reflexivity|].
  rewrite length_app, IH. cbn. lia.
Qed.

(** Decoding after encoding keeps the [n] low-order digits. *)
Lemma be_decode_encode (n : nat) (v : N) :
  be_decode (be_encode n v) = v mod 256 ^ N.of_nat n.
Proof.
  revert v. induction n as [|n IH]; intros v.
  - cbn. now rewrite N.mod_1_r.
  - cbn [be_encode]. rewrite be_decode_snoc, IH, uint_byte_of_N.
    rewrite Nat2N.inj_succ, N.pow_succ_r', N.Div0.mod_mul_r. lia.
Qed.

Lemma be_decode_encode_small (n : nat) (v : N) :
  v < 256 ^ N.of_nat n -> be_decode (be_encode n v) = v.
Proof. intros Hv. rewrite be_decode_encode. now apply N.mod_small. Qed.

(** Encoding after decoding gives the bytes back. *)
Lemma be_encode_decode (l : list byte) : be_encode (length l) (be_decode l) = l.
Proof.
  induction l as [|b l IH] using rev_ind; [reflexivity|].
  rewrite length_app, Nat.add_comm. cbn [length Nat.add be_encode].
  rewrite be_decode_snoc. pose proof (uint_lt b) as Hb.
  replace ((be_decode l * 256 + uint b) / 256) with (be_decode l).
  - rewrite IH. f_equal. f_equal.
    rewrite <- byte_of_N_mod.
    replace ((be_decode l * 256 + uint b) mod 256) with (uint b).
    + apply byte_of_N_uint.
    + rewrite N.add_comm, N.Div0.mod_add. symmetry. now apply N.mod_small.
  - rewrite N.add_comm, N.div_add by lia. rewrite N.div_small by assumption.
    reflexivity.
Qed.

(** *** [binary.BigEndian] against the big-endian reading *)

Lemma BigEndian_Uint64_at (b : list byte) :
  BigEndian_Uint64 b
  = be_decode [at_ b 0; at_ b 1; at_ b 2; at_ b 3;
               at_ b 4; at_ b 5; at_ b 6; at_ b 7].
Proof.
  unfold BigEndian_Uint64.
  change 56 with (48 + 8). rewrite lor_horner by apply uint_lt.
  change 48 with (40 + 8). rewrite lor_horner by apply uint_lt.
  change 40 with (32 + 8). rewrite lor_horner by apply uint_lt.
  change 32 with (24 + 8). rewrite lor_horner by apply uint_lt.
  change 24 with (16 + 8). rewrite lor_horner by apply uint_lt.
  change 16 with (8 + 8). rewrite lor_horner by apply uint_lt.
  rewrite <- (N.shiftl_0_r (uint (at_ b 7))).
  change 8 with (0 + 8). rewrite lor_horner by apply uint_lt.
  rewrite N.shiftl_0_r. reflexivity.
Qed.

Lemma BigEndian_Uint64_eight (b0 b1 b2 b3 b4 b5 b6 b7 : byte)
    (rest : list byte) :
  BigEndian_Uint64 (b0 :: b1 :: b2 :: b3 :: b4 :: b5 :: b6 :: b7 :: rest)
  = be_decode [b0; b1; b2; b3; b4; b5; b6; b7].
Proof. apply BigEndian_Uint64_at. Qed.

(** On at least eight bytes, [Uint64] reads the first eight. *)
Lemma BigEndian_Uint64_take (b : list byte) :
  (8 <= length b)%nat -> BigEndian_Uint64 b = be_decode (take 8 b).
Proof.
  intros Hb. do 8 (destruct b as [|? b]; [cbn in Hb; lia|]).
  apply BigEndian_Uint64_eight.
Qed.

Lemma shiftr_bytes (v : N) :
  N.shiftr v 8 = v / 256 /\
  N.shiftr v 16 = v / 256 / 256 /\
  N.shiftr v 24 = v / 256 / 256 / 256 /\
  N.shiftr v 32 = v / 256 / 256 / 256 / 256 /\
  N.shiftr v 40 = v / 256 / 256 / 256 / 256 / 256 /\
  N.shiftr v 48 = v / 256 / 256 / 256 / 256 / 256 / 256 /\
  N.shiftr v 56 = v / 256 / 256 / 256 / 256 / 256 / 256 / 256.
Proof.
  rewrite !N.shiftr_div_pow2, !N.Div0.div_div. repeat split; reflexivity.
Qed.

(** What [PutUint64] leaves in a buffer of at least eight bytes. *)
Lemma BigEndian_PutUint64_spec (b : list byte) (v : N) :
  (8 <= length b)%nat ->
  BigEndian_PutUint64 b v = be_encode 8 v ++ drop 8 b.
Proof.
  intros Hb.
  do 8 (destruct b as [|? b]; [cbn in Hb; lia|]).
  unfold BigEndian_PutUint64. cbn [be_encode app].
  destruct (shiftr_bytes v) as (-> & -> & -> & -> & -> & -> & ->).
  reflexivity.
Qed.

Lemma BigEndian_PutUint64_length (b : list byte) (v : N) :
  length (BigEndian_PutUint64 b v) = length b.
Proof. unfold BigEndian_PutUint64. now rewrite !length_insert. Qed.

Lemma BigEndian_PutUint64_take (b : list byte) (v : N) :
  (8 <= length b)%nat -> take 8 (BigEndian_PutUint64 b v) = be_encode 8 v.
Proof.
  intros Hb. rewrite BigEndian_PutUint64_spec by assumption.
  rewrite take_app_length'; [reflexivity | symmetry; apply length_be_encode].
Qed.

(** The round trip of [encoding/binary] on 64-bit values. *)
Lemma BigEndian_Uint64_encode (v : N) (rest : list byte) :
  BigEndian_Uint64 (be_encode 8 v ++ rest) = v mod two64.
Proof.
  pose proof (be_decode_encode 8 v) as H.
  cbn [be_encode app] in *. now rewrite BigEndian_Uint64_eight.
Qed.

Lemma BigEndian_Uint64_lt (b : list byte) : BigEndian_Uint64 b < two64.
Proof.
  rewrite BigEndian_Uint64_at.
  apply (be_decode_lt [_; _; _; _; _; _; _; _]).
Qed.

(** [Key] reads a slice of exactly eight bytes. *)
Lemma Key_slice_length (p : Pulse) :
  length p = PulseSize -> length (take 8 p) = 8%nat.
Proof. intros Hp. rewrite length_take, Hp. reflexivity. Qed.

(** The three minute bytes, read the way [Minutes] reads them. *)
Lemma minutes_bytes_decode (b8 b9 b10 : byte) :
  N.lor (N.lor (N.shiftl (uint b8) 16) (N.shiftl (uint b9) 8)) (uint b10)
  = be_decode [b8; b9; b10].
Proof.
  rewrite (N.lor_comm (N.shiftl (uint b8) 16)).
  change 16 with (8 + 8). rewrite lor_horner by apply uint_lt.
  rewrite lor_shiftl_small by apply uint_lt. reflexivity.
Qed.

Lemma raw_minutes_be (p : Pulse) :
  raw_minutes p = be_decode [at_ p 8; at_ p 9; at_ p 10].
Proof. unfold raw_minutes, be_decode. cbn [fold_left]. lia. Qed.

Lemma raw_minutes_lt (p : Pulse) : raw_minutes p < 2 ^ 24.
Proof. rewrite raw_minutes_be. apply (be_decode_lt [_; _; _]). Qed.

(** The three minute bytes, written the way [NewPulse] writes them. *)
Lemma minutes_bytes_encode (m : N) :
  [byte_of_N (N.shiftr m 16); byte_of_N (N.shiftr m 8); byte_of_N m]
  = be_encode 3 m.
Proof.
  cbn [be_encode app].
  destruct (shiftr_bytes m) as (-> & -> & _). reflexivity.
Qed.

Lemma uint_sub_le (a b : N) : b <= a -> a < two64 -> uint_sub a b = a - b.
Proof.
  intros Hb Ha. unfold uint_sub.
  rewrite (N.mod_small b) by lia.
  replace (a + two64 - b) with (a - b + 1 * two64) by lia.
  rewrite N.Div0.mod_add. apply N.mod_small. lia.
Qed.

(** ** [iterate_chain] is a chain engine *)

Lemma iterate_chain_composes (step : N -> N) :
  chain_composes (iterate_chain step).
Proof.
  intros x a b. unfold iterate_chain.
  rewrite N.add_comm. symmetry. apply N.iter_add.
Qed.

Lemma iterate_chain_identity (step : N -> N) :
  chain_identity (iterate_chain step).
Proof. intros x. reflexivity. Qed.

Lemma iterate_chain_uint64 (step : N -> N) :
  (forall x, step x < two64) -> chain_uint64 (iterate_chain step).
Proof.
  intros Hstep x n Hx. unfold iterate_chain.
  apply N.iter_invariant; auto.
Qed.

Lemma mix64_lt (x : N) : mix64 x < two64.
Proof. unfold mix64. apply N.mod_upper_bound. discriminate. Qed.

Lemma pad_digest_size : digest_size_32 pad_digest.
Proof.
  intros msg. unfold pad_digest.
  rewrite length_take, length_app, repeat_length. lia.
Qed.

(** ** The selector loop *)

(** The test [i < len(selectorOrdinals)] and the read [selectorOrdinals[i]]
    depend on the ordinals only through the entry at index [i]. *)
Lemma ordinal_guard (ords : list N) (i : nat) :
  ((i <? length ords)%nat, nth i ords 0)
  = match ords !! i with
    | Some o => (true, o)
    | None => (false, 0)
    end.
Proof.
  rewrite nth_lookup.
  destruct (ords !! i) as [o|] eqn:E.
  - apply lookup_lt_Some in E. apply Nat.ltb_lt in E. now rewrite E.
  - apply lookup_ge_None in E. apply Nat.ltb_ge in E. now rewrite E.
Qed.

(** One iteration, with the guard and the read resolved. *)
Lemma selector_loop_step (names : list (list byte)) (ords : list N)
    (n i : nat) (h : hasher) (tmp : list byte) :
  selector_loop names ords (S n) i h tmp
  = match ords !! i with
    | Some o =>
        let tmp' := BigEndian_PutUint64 tmp o in
        selector_loop names ords n (S i)
          (Write (Write h (nth i names [])) (take 8 tmp')) tmp'
    | None => selector_loop names ords n (S i) (Write h (nth i names [])) tmp
    end.
Proof.
  cbn [selector_loop].
  pose proof (ordinal_guard ords i) as G.
  destruct (ords !! i); injection G as G1 G2; rewrite G1; [rewrite G2|];
    reflexivity.
Qed.

(** The loop writes the selector bytes of the specification and leaves the
    scratch buffer at its size. *)
Lemma selector_loop_spec (names : list (list byte)) (ords : list N)
    (n : nat) :
  forall (i : nat) (h : hasher) (tmp : list byte),
    (i + n = length names)%nat -> (8 <= length tmp)%nat ->
    exists tmp',
      selector_loop names ords n i h tmp
      = (h ++ spec_selector_bytes (drop i names) (drop i ords), tmp')
      /\ length tmp' = length tmp.
Proof.
  induction n as [|n IH]; intros i h tmp Hi Htmp.
  - exists tmp. rewrite drop_ge by lia. cbn. now rewrite app_nil_r.
  - rewrite selector_loop_step.
    destruct (lookup_lt_is_Some_2 names i ltac:(lia)) as [name Hname].
    rewrite (nth_lookup_Some _ _ _ _ Hname).
    rewrite (drop_S _ _ _ Hname). cbn [spec_selector_bytes].
    destruct (ords !! i) as [o|] eqn:Ho.
    + rewrite (drop_S _ _ _ Ho). cbn zeta.
      rewrite BigEndian_PutUint64_take by assumption.
      destruct (IH (S i) (Write (Write h name) (be_encode 8 o))
                  (BigEndian_PutUint64 tmp o)) as (tmp' & -> & Hlen).
      * lia.
      * now rewrite BigEndian_PutUint64_length.
      * exists tmp'. split.
        -- unfold Write. now rewrite <- !app_assoc.
        -- now rewrite Hlen, BigEndian_PutUint64_length.
    + apply lookup_ge_None in Ho.
      rewrite (drop_ge ords i) by assumption.
      destruct (IH (S i) (Write h name) tmp) as (tmp' & -> & Hlen);
        [lia | assumption |].
      exists tmp'. split; [|assumption].
      unfold Write. rewrite (drop_ge ords (S i)) by lia.
      now rewrite <- app_assoc.
Qed.

(** The loop consults no ordinal at or beyond [len(selectorNames)]. *)
Lemma selector_loop_ordinals (names : list (list byte)) (ords1 ords2 : list N)
    (n : nat) :
  take (length names) ords1 = take (length names) ords2 ->
  forall (i : nat) (h : hasher) (tmp : list byte),
    (i + n <= length names)%nat ->
    selector_loop names ords1 n i h tmp = selector_loop names ords2 n i h tmp.
Proof.
  intros Hords. induction n as [|n IH]; intros i h tmp Hi; [reflexivity|].
  rewrite !selector_loop_step.
  assert (ords1 !! i = ords2 !! i) as <-.
  { rewrite <- (lookup_take_lt ords1 (length names) i) by lia.
    rewrite <- (lookup_take_lt ords2 (length names) i) by lia.
    now rewrite Hords. }
  destruct (ords1 !! i); cbn zeta; apply IH; lia.
Qed.

(** ** Properties of the pulse code *)

Section PulseProperties.

Variable RecordMaxPulseSpan : N.
Variable th64n : N -> N -> N.
Variable sha256_digest : list byte -> list byte.
Variable PrivateHash : Owner -> list byte.

Local Abbreviation minutes_of := (Minutes RecordMaxPulseSpan).
Local Abbreviation token_of := (Token RecordMaxPulseSpan th64n).
Local Abbreviation seed_of := (pulse_seed sha256_digest PrivateHash).
Local Abbreviation new_pulse :=
  (NewPulse RecordMaxPulseSpan th64n sha256_digest PrivateHash).

(** *** The two early returns and the normal return *)

Lemma NewPulse_no_key owner names ords ts m :
  Private owner = None ->
  new_pulse owner names ords ts m = ([], Some ErrPrivateKeyRequired).
Proof. intros H. unfold NewPulse. now rewrite H. Qed.

Lemma NewPulse_span_exceeded owner names ords ts m :
  Private owner <> None -> RecordMaxPulseSpan < m ->
  new_pulse owner names ords ts m = ([], Some ErrInvalidParameter).
Proof.
  intros Hk Hm. unfold NewPulse.
  destruct (Private owner); [|contradiction].
  apply N.ltb_lt in Hm. now rewrite Hm.
Qed.

(** The pulse returned on the normal path: the chain value as eight
    big-endian bytes, then the minutes as three. *)
Lemma NewPulse_success owner names ords ts m :
  Private owner <> None -> m <= RecordMaxPulseSpan ->
  new_pulse owner names ords ts m
  = (be_encode 8
       (th64n (seed_of owner names ords ts)
          (uint_sub RecordMaxPulseSpan m))
     ++ be_encode 3 m, None).
Proof.
  intros Hk Hm. unfold NewPulse.
  destruct (Private owner); [|contradiction].
  destruct (N.ltb_spec RecordMaxPulseSpan m) as [Hlt|_]; [lia|].
  f_equal. rewrite BigEndian_PutUint64_spec by (cbn; lia).
  rewrite <- minutes_bytes_encode. reflexivity.
Qed.

(** Reading back a pulse laid out as eight key bytes and three minute
    bytes. *)
Lemma Key_encoded (v m : N) :
  Key (be_encode 8 v ++ be_encode 3 m) = v mod two64.
Proof.
  unfold Key. rewrite length_app, !length_be_encode. cbn [Nat.add Nat.eqb PulseSize negb].
  rewrite take_app_length' by now rewrite length_be_encode.
  rewrite <- (app_nil_r (be_encode 8 v)). apply BigEndian_Uint64_encode.
Qed.

Lemma Minutes_eleven (p : Pulse) :
  length p = PulseSize ->
  minutes_of p
  = if RecordMaxPulseSpan <? raw_minutes p then RecordMaxPulseSpan
    else raw_minutes p.
Proof.
  intros Hp. unfold Minutes. rewrite Hp. cbn [Nat.eqb PulseSize negb].
  rewrite minutes_bytes_decode, <- raw_minutes_be. reflexivity.
Qed.

Lemma raw_minutes_encoded (v m : N) :
  raw_minutes (be_encode 8 v ++ be_encode 3 m) = m mod 2 ^ 24.
Proof.
  rewrite raw_minutes_be. unfold at_. cbn [be_encode app nth].
  apply (be_decode_encode 3 m).
Qed.

Lemma Minutes_encoded (v m : N) :
  m <= RecordMaxPulseSpan -> m < 2 ^ 24 ->
  minutes_of (be_encode 8 v ++ be_encode 3 m) = m.
Proof.
  intros Hm Hm24. rewrite Minutes_eleven.
  - rewrite raw_minutes_encoded, N.mod_small by assumption.
    destruct (N.ltb_spec RecordMaxPulseSpan m); [lia | reflexivity].
  - rewrite length_app, !length_be_encode. reflexivity.
Qed.

(** *** The seed *)

Lemma pulse_hasher_spec owner names ords ts :
  pulse_hasher PrivateHash owner names ords ts
  = spec_seed_message (PrivateHash owner) names ords ts.
Proof.
  unfold pulse_hasher, spec_seed_message.
  destruct (selector_loop_spec names ords (length names) 0 sha256_New
              (repeat x00 32)) as (tmp' & -> & Hlen);
    [reflexivity | cbn; lia |].
  rewrite BigEndian_PutUint64_take
    by (rewrite Hlen, repeat_length; lia).
  unfold Write, sha256_New. rewrite !drop_0. cbn [app].
  now rewrite <- app_assoc.
Qed.

(** [NewPulse] hands [Uint64] a whole digest. *)
Lemma NewPulse_digest_length owner names ords ts :
  digest_size_32 sha256_digest ->
  length (Sum sha256_digest (pulse_hasher PrivateHash owner names ords ts) [])
  = 32%nat.
Proof. intros Hd. unfold Sum. cbn [app]. apply Hd. Qed.

Lemma pulse_seed_spec owner names ords ts :
  digest_size_32 sha256_digest ->
  seed_of owner names ords ts
  = spec_seed sha256_digest (PrivateHash owner) names ords ts.
Proof.
  intros Hd. unfold pulse_seed, spec_seed.
  rewrite BigEndian_Uint64_take
    by (rewrite NewPulse_digest_length by assumption; lia).
  unfold Sum. cbn [app]. now rewrite pulse_hasher_spec.
Qed.

Lemma pulse_seed_lt owner names ords ts :
  seed_of owner names ords ts < two64.
Proof. apply BigEndian_Uint64_lt. Qed.

Lemma pulse_seed_ordinals owner names ords1 ords2 ts :
  take (length names) ords1 = take (length names) ords2 ->
  seed_of owner names ords1 ts = seed_of owner names ords2 ts.
Proof.
  intros Hords. unfold pulse_seed, pulse_hasher.
  now rewrite (selector_loop_ordinals names ords1 ords2 _ Hords) by lia.
Qed.

(** A pulse comes back without error only past both guards. *)
Lemma NewPulse_returns_pulse owner names ords ts m p :
  new_pulse owner names ords ts m = (p, None) ->
  Private owner <> None /\ m <= RecordMaxPulseSpan.
Proof.
  unfold NewPulse. intros H.
  destruct (Private owner); [|discriminate].
  destruct (N.ltb_spec RecordMaxPulseSpan m); [discriminate|].
  split; [discriminate | assumption].
Qed.

(** The chain value of a generated pulse is a [uint64]. *)
Lemma chain_value_lt owner names ords ts n :
  chain_uint64 th64n -> th64n (seed_of owner names ords ts) n < two64.
Proof. intros Hc. apply Hc, pulse_seed_lt. Qed.

Lemma be_encode_8_inj (v w : N) :
  v < two64 -> w < two64 -> be_encode 8 v = be_encode 8 w -> v = w.
Proof.
  intros Hv Hw E.
  rewrite <- (be_decode_encode_small 8 v), <- (be_decode_encode_small 8 w)
    by assumption.
  now rewrite E.
Qed.

(** *** The claims *)

(** C1.  For an owner holding private key material and [0 <= m <=
    RecordMaxPulseSpan], if the chain primitive satisfies the composition
    law and the identity, [NewPulse] returns without error a pulse whose
    [Token] is [chain(S, RecordMaxPulseSpan)], [S] being the anchor seed
    of the inputs; the right-hand side does not mention [m].  The span
    constant and the chain primitive are parameters: the span is taken
    to fit the 24-bit minutes field and the primitive to return 64-bit
    values. *)
Theorem Token_NewPulse_anchor owner names ords ts m :
  Private owner <> None ->
  m <= RecordMaxPulseSpan ->
  span_fits_minutes RecordMaxPulseSpan ->
  chain_composes th64n -> chain_identity th64n -> chain_uint64 th64n ->
  exists p,
    new_pulse owner names ords ts m = (p, None)
    /\ token_of p = th64n (seed_of owner names ords ts) RecordMaxPulseSpan.
Proof.
  intros Hk Hm Hspan Hcomp _ Hrange. unfold span_fits_minutes in Hspan.
  eexists. split; [now apply NewPulse_success|].
  unfold Token.
  rewrite Key_encoded, Minutes_encoded by lia.
  rewrite N.mod_small by now apply chain_value_lt.
  rewrite uint_sub_le by (try assumption; unfold two64; lia).
  rewrite Hcomp. f_equal. lia.
Qed.

(** C2.  For every successful call of [NewPulse], bytes 0..7 of the pulse
    hold [chain(S, RecordMaxPulseSpan - minutes)] in big-endian order,
    where [S] is the big-endian number in the first eight bytes of the
    digest of: each selector name followed, while ordinals last, by its
    ordinal as eight big-endian bytes; then the timestamp as eight
    big-endian bytes; then the owner's private-material hash. *)
Theorem NewPulse_chain_value owner names ords ts m p :
  new_pulse owner names ords ts m = (p, None) ->
  RecordMaxPulseSpan < two64 ->
  digest_size_32 sha256_digest ->
  chain_uint64 th64n ->
  let S := spec_seed sha256_digest (PrivateHash owner) names ords ts in
  take 8 p = be_encode 8 (th64n S (RecordMaxPulseSpan - m))
  /\ be_decode (take 8 p) = th64n S (RecordMaxPulseSpan - m).
Proof.
  intros Hp Hspan Hd Hrange S.
  destruct (NewPulse_returns_pulse _ _ _ _ _ _ Hp) as [Hk Hm].
  rewrite NewPulse_success in Hp by assumption.
  apply (f_equal fst) in Hp. cbn [fst] in Hp. subst p.
  rewrite take_app_length' by now rewrite length_be_encode.
  rewrite uint_sub_le by assumption.
  rewrite pulse_seed_spec by assumption. fold S.
  split; [reflexivity|].
  apply (be_decode_encode_small 8).
  unfold S. rewrite <- pulse_seed_spec by assumption.
  now apply chain_value_lt.
Qed.

(** C3.  For every [m <= RecordMaxPulseSpan] and owner with private key
    material, [NewPulse] succeeds with an 11-byte pulse [p] such that
    [Minutes(p) = m] and [Key(p)] is the chain value that was encoded
    into bytes 0..7; [m = RecordMaxPulseSpan] is included. *)
Theorem NewPulse_round_trip owner names ords ts m :
  Private owner <> None ->
  m <= RecordMaxPulseSpan ->
  span_fits_minutes RecordMaxPulseSpan ->
  chain_uint64 th64n ->
  exists p,
    new_pulse owner names ords ts m = (p, None)
    /\ length p = PulseSize
    /\ minutes_of p = m
    /\ take 8 p
       = be_encode 8
           (th64n (seed_of owner names ords ts) (RecordMaxPulseSpan - m))
    /\ Key p = th64n (seed_of owner names ords ts) (RecordMaxPulseSpan - m).
Proof.
  intros Hk Hm Hspan Hrange. unfold span_fits_minutes in Hspan.
  eexists. split; [now apply NewPulse_success|].
  rewrite uint_sub_le by (try assumption; unfold two64; lia).
  split; [|split; [|split]].
  - rewrite length_app, !length_be_encode. reflexivity.
  - apply Minutes_encoded; lia.
  - now rewrite take_app_length' by now rewrite length_be_encode.
  - rewrite Key_encoded. apply N.mod_small. now apply chain_value_lt.
Qed.

(** C4.  [NewPulse] fails with [ErrPrivateKeyRequired], returning no
    pulse, whenever [owner.Private] is nil, whatever the other
    arguments. *)
Theorem NewPulse_private_key_required owner names ords ts m :
  Private owner = None ->
  new_pulse owner names ords ts m = ([], Some ErrPrivateKeyRequired).
Proof. apply NewPulse_no_key. Qed.

(** C5.  For an owner with private key material, [NewPulse] fails with
    [ErrInvalidParameter] if and only if
    [minutes > RecordMaxPulseSpan]. *)
Theorem NewPulse_invalid_parameter_iff owner names ords ts m :
  Private owner <> None ->
  (snd (new_pulse owner names ords ts m) = Some ErrInvalidParameter
   <-> RecordMaxPulseSpan < m).
Proof.
  intros Hk. split.
  - intros He. destruct (N.lt_ge_cases RecordMaxPulseSpan m) as [|Hm];
      [assumption|].
    rewrite NewPulse_success in He by assumption. discriminate.
  - intros Hm. now rewrite NewPulse_span_exceeded.
Qed.

(** C6.  For every 11-byte pulse, [Minutes] returns the 24-bit big-endian
    number of bytes 8..10 when that number is at most
    [RecordMaxPulseSpan], and exactly [RecordMaxPulseSpan] when it is
    larger. *)
Theorem Minutes_clamped (p : Pulse) :
  length p = PulseSize ->
  raw_minutes p < 2 ^ 24
  /\ (raw_minutes p <= RecordMaxPulseSpan -> minutes_of p = raw_minutes p)
  /\ (RecordMaxPulseSpan < raw_minutes p ->
      minutes_of p = RecordMaxPulseSpan).
Proof.
  intros Hp. split; [apply raw_minutes_lt|].
  rewrite Minutes_eleven by assumption.
  destruct (N.ltb_spec RecordMaxPulseSpan (raw_minutes p));
    split; intros; (reflexivity || lia).
Qed.

(** C7.  On a byte sequence whose length is not 11 both accessors return
    zero. *)
Theorem accessors_wrong_length (p : list byte) :
  length p <> PulseSize -> Key p = 0 /\ minutes_of p = 0.
Proof.
  intros Hp. apply Nat.eqb_neq in Hp.
  unfold Key, Minutes. now rewrite Hp.
Qed.

(** C8.  Whenever [NewPulse] returns a non-nil error, the pulse returned
    is the empty slice and the error is one of the two sentinels
    [ErrPrivateKeyRequired] and [ErrInvalidParameter]. *)
Theorem NewPulse_error_no_pulse owner names ords ts m p e :
  new_pulse owner names ords ts m = (p, Some e) ->
  p = [] /\ (e = ErrPrivateKeyRequired \/ e = ErrInvalidParameter).
Proof.
  unfold NewPulse. intros H.
  destruct (Private owner).
  - destruct (RecordMaxPulseSpan <? m); [|discriminate].
    injection H as <- <-. auto.
  - injection H as <- <-. auto.
Qed.

(** The token half of the scenario with 10 and with 20 minutes.  With
    [RecordMaxPulseSpan >= 20] and a chain that satisfies the composition
    law, the two pulses of one owner, selectors and timestamp have the same
    [Token], and their bytes 0..7 hold [th64n(S, RecordMaxPulseSpan - 10)]
    and [th64n(S, RecordMaxPulseSpan - 20)].  Whether these two chain
    values differ is a matter of [th64n] and of the digest, which are
    parameters here; nothing is proved about it. *)
Lemma ten_twenty_same_token owner names ords ts :
  Private owner <> None ->
  20 <= RecordMaxPulseSpan ->
  RecordMaxPulseSpan < two64 ->
  chain_composes th64n -> chain_uint64 th64n ->
  let S := seed_of owner names ords ts in
  exists p10 p20,
    new_pulse owner names ords ts 10 = (p10, None)
    /\ new_pulse owner names ords ts 20 = (p20, None)
    /\ token_of p10 = token_of p20
    /\ take 8 p10 = be_encode 8 (th64n S (RecordMaxPulseSpan - 10))
    /\ take 8 p20 = be_encode 8 (th64n S (RecordMaxPulseSpan - 20)).
Proof.
  intros Hk Hspan H64 Hcomp Hrange S.
  do 2 eexists.
  split; [apply NewPulse_success; [assumption | lia]|].
  split; [apply NewPulse_success; [assumption | lia]|].
  rewrite !uint_sub_le by (try assumption; lia).
  rewrite !take_app_length' by now rewrite length_be_encode.
  fold S.
  split; [|split; reflexivity].
  unfold Token.
  rewrite !Key_encoded, !Minutes_encoded by (try reflexivity; lia).
  rewrite !N.mod_small by now apply chain_value_lt.
  rewrite !Hcomp. f_equal. lia.
Qed.

(** C10.  Two calls of [NewPulse] that agree on the owner, the selector
    names, the timestamp and the minutes, and whose ordinal lists agree on
    their first [len(selectorNames)] entries, return the same pulse and
    the same error. *)
Theorem NewPulse_surplus_ordinals owner names ords1 ords2 ts m :
  take (length names) ords1 = take (length names) ords2 ->
  NewPulse RecordMaxPulseSpan th64n sha256_digest PrivateHash
    owner names ords1 ts m
  = NewPulse RecordMaxPulseSpan th64n sha256_digest PrivateHash
      owner names ords2 ts m.
Proof.
  intros Hords. unfold NewPulse.
  now rewrite (pulse_seed_ordinals owner names ords1 ords2 ts Hords).
Qed.

End PulseProperties.

(** ** Closed instances

    The parameters are set to a span of one year, the chain engine over
    [mix64], the padding digest and the key bytes as private hash. *)

Lemma signing_owner_has_key : Private signing_owner <> None.
Proof. discriminate. Qed.

Lemma year_chain_uint64 : chain_uint64 (iterate_chain mix64).
Proof. apply iterate_chain_uint64, mix64_lt. Qed.

(** C1 at three minutes before the end of the span. *)
Lemma Token_NewPulse_anchor_witness :
  exists p,
    year_pulse signing_owner sample_names sample_ordinals sample_timestamp
      (one_year - 3) = (p, None)
    /\ year_token p
       = iterate_chain mix64
           (year_seed signing_owner sample_names sample_ordinals
              sample_timestamp)
           one_year.
Proof.
  apply (Token_NewPulse_anchor one_year (iterate_chain mix64) pad_digest
           key_bytes signing_owner sample_names sample_ordinals
           sample_timestamp (one_year - 3)).
  - apply signing_owner_has_key.
  - vm_compute. discriminate.
  - reflexivity.
  - apply iterate_chain_composes.
  - apply iterate_chain_identity.
  - apply year_chain_uint64.
Defined.

(** C2 at the pulse generated three minutes before the end of the span. *)
Lemma NewPulse_chain_value_witness :
  take 8
    (fst (year_pulse signing_owner sample_names sample_ordinals
            sample_timestamp (one_year - 3)))
  = be_encode 8
      (iterate_chain mix64
         (spec_seed pad_digest (key_bytes signing_owner) sample_names
            sample_ordinals sample_timestamp)
         (one_year - (one_year - 3)))
  /\ be_decode
       (take 8
          (fst (year_pulse signing_owner sample_names sample_ordinals
                  sample_timestamp (one_year - 3))))
     = iterate_chain mix64
         (spec_seed pad_digest (key_bytes signing_owner) sample_names
            sample_ordinals sample_timestamp)
         (one_year - (one_year - 3)).
Proof.
  apply (NewPulse_chain_value one_year (iterate_chain mix64) pad_digest
           key_bytes signing_owner sample_names sample_ordinals
           sample_timestamp (one_year - 3)).
  - vm_compute. reflexivity.
  - reflexivity.
  - apply pad_digest_size.
  - apply year_chain_uint64.
Defined.

(** C3 at the full span, [m = RecordMaxPulseSpan]. *)
Lemma NewPulse_round_trip_witness :
  exists p,
    year_pulse signing_owner sample_names sample_ordinals sample_timestamp
      one_year = (p, None)
    /\ length p = PulseSize
    /\ year_minutes p = one_year
    /\ take 8 p
       = be_encode 8
           (iterate_chain mix64
              (year_seed signing_owner sample_names sample_ordinals
                 sample_timestamp)
              (one_year - one_year))
    /\ Key p
       = iterate_chain mix64
           (year_seed signing_owner sample_names sample_ordinals
              sample_timestamp)
           (one_year - one_year).
Proof.
  apply (NewPulse_round_trip one_year (iterate_chain mix64) pad_digest
           key_bytes signing_owner sample_names sample_ordinals
           sample_timestamp one_year).
  - apply signing_owner_has_key.
  - vm_compute. discriminate.
  - reflexivity.
  - apply year_chain_uint64.
Defined.

(** C4 at an owner that only has a public key. *)
Lemma NewPulse_private_key_required_witness :
  year_pulse public_owner sample_names sample_ordinals sample_timestamp 10
  = ([], Some ErrPrivateKeyRequired).
Proof.
  apply (NewPulse_private_key_required one_year (iterate_chain mix64)
           pad_digest key_bytes public_owner).
  reflexivity.
Defined.

(** C5 at one minute past the span. *)
Lemma NewPulse_invalid_parameter_iff_witness :
  snd (year_pulse signing_owner sample_names sample_ordinals sample_timestamp
         (one_year + 1)) = Some ErrInvalidParameter
  <-> one_year < one_year + 1.
Proof.
  apply (NewPulse_invalid_parameter_iff one_year (iterate_chain mix64)
           pad_digest key_bytes signing_owner).
  apply signing_owner_has_key.
Defined.

(** C6 at a pulse whose minute bytes are all ones. *)
Lemma Minutes_clamped_witness :
  let p := [x00; x00; x00; x00; x00; x00; x00; x2a; xff; xff; xff] in
  raw_minutes p < 2 ^ 24
  /\ (raw_minutes p <= one_year -> year_minutes p = raw_minutes p)
  /\ (one_year < raw_minutes p -> year_minutes p = one_year).
Proof.
  apply (Minutes_clamped one_year
           [x00; x00; x00; x00; x00; x00; x00; x2a; xff; xff; xff]).
  reflexivity.
Defined.

(** C7 at a twelve-byte sequence. *)
Lemma accessors_wrong_length_witness :
  Key [x01; x02; x03; x04; x05; x06; x07; x08; x09; x0a; x0b; x0c] = 0
  /\ year_minutes [x01; x02; x03; x04; x05; x06; x07; x08; x09; x0a; x0b; x0c]
     = 0.
Proof.
  apply (accessors_wrong_length one_year
           [x01; x02; x03; x04; x05; x06; x07; x08; x09; x0a; x0b; x0c]).
  vm_compute. discriminate.
Defined.

(** C8 at one minute past the span. *)
Lemma NewPulse_error_no_pulse_witness :
  fst (year_pulse signing_owner sample_names sample_ordinals sample_timestamp
         (one_year + 1)) = []
  /\ (ErrInvalidParameter = ErrPrivateKeyRequired
      \/ ErrInvalidParameter = ErrInvalidParameter).
Proof.
  apply (NewPulse_error_no_pulse one_year (iterate_chain mix64) pad_digest
           key_bytes signing_owner sample_names sample_ordinals
           sample_timestamp (one_year + 1)
           (fst (year_pulse signing_owner sample_names sample_ordinals
                   sample_timestamp (one_year + 1)))
           ErrInvalidParameter).
  vm_compute. reflexivity.
Defined.

(** The composition law, the identity and the 64-bit range do not by
    themselves make a chain take different values at different step counts:
    [mix64] fixes 0, so the chain over it stays at 0. *)
Lemma chain_laws_allow_a_fixed_point :
  chain_composes (iterate_chain mix64)
  /\ chain_identity (iterate_chain mix64)
  /\ chain_uint64 (iterate_chain mix64)
  /\ forall n, iterate_chain mix64 0 n = 0.
Proof.
  split; [apply iterate_chain_composes|].
  split; [apply iterate_chain_identity|].
  split; [apply year_chain_uint64|].
  intros n. unfold iterate_chain.
  apply N.iter_invariant; [|reflexivity].
  intros x ->. reflexivity.
Qed.

(** C10 at ordinal lists that differ only past the two selector names. *)
Lemma NewPulse_surplus_ordinals_witness :
  year_pulse signing_owner sample_names [7; 8] sample_timestamp
    (one_year - 3)
  = year_pulse signing_owner sample_names [7; 8; 9; 10] sample_timestamp
      (one_year - 3).
Proof.
  apply (NewPulse_surplus_ordinals one_year (iterate_chain mix64) pad_digest
           key_bytes signing_owner sample_names [7; 8] [7; 8; 9; 10]).
  reflexivity.
Defined.

(** Why the span has to fit the minutes field: with a span of [2^24] a
    request for [2^24] minutes passes the guard of [NewPulse], its three
    minute bytes are all zero, and [Minutes] reads 0 back. *)
Lemma minutes_field_is_24_bits :
  exists p,
    NewPulse (2 ^ 24) (iterate_chain mix64) pad_digest key_bytes
      signing_owner sample_names sample_ordinals sample_timestamp (2 ^ 24)
    = (p, None)
    /\ Minutes (2 ^ 24) p = 0.
Proof. eexists. split; vm_compute; reflexivity. Qed.

(** ** Error strings *)

Local Open Scope string_scope.

Lemma all_distinct_NoDup (l : list string) :
  all_distinct l = true -> NoDup l.
Proof.
  induction l as [|x r IH]; cbn [all_distinct]; intros H.
  - constructor.
  - apply andb_prop in H as [Hx Hr]. constructor; [|now apply IH].
    intros Hin. apply negb_true_iff in Hx.
    assert (existsb (String.eqb x) r = true) as E; [|congruence].
    apply existsb_exists. exists x. split.
    + now apply list_elem_of_In.
    + apply String.eqb_refl.
Qed.

Lemma has_char_append (c : ascii) (a b : string) :
  has_char c (a ++ b) = has_char c a || has_char c b.
Proof.
  induction a as [|x a IH]; cbn; [reflexivity|].
  now rewrite IH, orb_assoc.
Qed.

(** Two strings cut at the first occurrence of [c] agree piecewise. *)
Lemma split_at_char (c : ascii) (s1 s2 r1 r2 : string) :
  has_char c s1 = false -> has_char c s2 = false ->
  s1 ++ String c r1 = s2 ++ String c r2 -> s1 = s2 /\ r1 = r2.
Proof.
  revert s2. induction s1 as [|x s1 IH]; intros [|y s2] H1 H2 E; cbn in *.
  - injection E as ->. auto.
  - injection E as <- _. now rewrite Ascii.eqb_refl in H2.
  - injection E as -> _. now rewrite Ascii.eqb_refl in H1.
  - injection E as -> E.
    apply orb_false_elim in H1 as [_ H1]. apply orb_false_elim in H2 as [_ H2].
    destruct (IH s2 H1 H2 E) as [-> ->]. auto.
Qed.

Lemma length_append (a b : string) :
  String.length (a ++ b) = (String.length a + String.length b)%nat.
Proof. induction a as [|x a IH]; cbn; [reflexivity | now rewrite IH]. Qed.

Lemma append_inj_l (a b s : string) : a ++ s = b ++ s -> a = b.
Proof.
  revert b. induction a as [|x a IH]; intros [|y b] E; cbn in *.
  - reflexivity.
  - apply (f_equal String.length) in E. cbn in E.
    rewrite length_append in E. lia.
  - apply (f_equal String.length) in E. cbn in E.
    rewrite length_append in E. lia.
  - injection E as -> E. f_equal. now apply IH.
Qed.

(** A decimal numeral holds digits and at most a minus sign. *)
Lemma Sprintf_d_chars (c : ascii) (z : Z) :
  has_char c "-0123456789" = false -> has_char c (Sprintf_d z) = false.
Proof.
  intros H. cbn in H.
  repeat (apply orb_false_elim in H; destruct H as [? H]).
  assert (forall d, has_char c (NilEmpty.string_of_uint d) = false) as Hu.
  { induction d; cbn; rewrite ?IHd; auto using orb_false_intro. }
  assert (forall d, has_char c (NilZero.string_of_uint d) = false) as Hz.
  { intros d. destruct d; try apply Hu. cbn. auto using orb_false_intro. }
  unfold Sprintf_d. destruct (Z.to_int z); cbn [NilZero.string_of_int].
  - apply Hz.
  - cbn [has_char]. rewrite Hz. auto using orb_false_intro.
Qed.

Lemma Sprintf_d_inj (a b : Z) : Sprintf_d a = Sprintf_d b -> a = b.
Proof.
  unfold Sprintf_d. intros E.
  apply (f_equal NilZero.int_of_string) in E.
  assert (forall z, Z.to_int z <> Decimal.Pos Decimal.Nil
                    /\ Z.to_int z <> Decimal.Neg Decimal.Nil) as Hn.
  { intros [|p|p]; cbn; split; try discriminate;
      intros [= H]; now apply Unsigned.to_uint_nonnil in H. }
  rewrite !NilZero.isi in E by apply Hn.
  injection E as E. now apply to_int_inj.
Qed.

Lemma String_length_pos (s : string) :
  (0 <? String.length s)%nat = negb (String.eqb s "").
Proof. destruct s; reflexivity. Qed.

(** X14.  The 36 sentinel errors of the two [const] blocks have pairwise
    different messages: the text returned by [Error()] identifies the
    sentinel, within a block and across the two blocks. *)
Theorem sentinel_messages_distinct :
  NoDup (map Err_Error general_errors ++ map ErrRecord_Error record_errors).
Proof. apply all_distinct_NoDup. vm_compute. reflexivity. Qed.

(** X15.  [ErrDatabase.Error] loses nothing: two database errors with the
    same text have the same code and the same message. *)
Theorem ErrDatabase_Error_inj (e1 e2 : ErrDatabase) :
  ErrDatabase_Error e1 = ErrDatabase_Error e2 -> e1 = e2.
Proof.
  destruct e1 as [c1 m1], e2 as [c2 m2]. unfold ErrDatabase_Error.
  cbn [ErrCode ErrMessage]. intros E.
  cbn [append] in E. injection E as E.
  apply split_at_char in E as [Ec Em];
    [|now apply Sprintf_d_chars|now apply Sprintf_d_chars].
  apply Sprintf_d_inj in Ec. injection Em as Em.
  apply append_inj_l in Em. now subst.
Qed.

(** X16.  [ErrAPI.Error] is ambiguous: an error with type name [t] (not
    empty) and message [m] has the same text as the different error with
    no type name and message [t:m]. *)
Theorem ErrAPI_Error_collision (code : Z) (t m : string) :
  t <> "" ->
  {| Code := code; Message := m; ErrTypeName := t |}
  <> {| Code := code; Message := t ++ ":" ++ m; ErrTypeName := "" |}
  /\ ErrAPI_Error {| Code := code; Message := m; ErrTypeName := t |}
     = ErrAPI_Error
         {| Code := code; Message := t ++ ":" ++ m; ErrTypeName := "" |}.
Proof.
  intros Ht. split; [congruence|].
  unfold ErrAPI_Error. cbn [Code Message ErrTypeName].
  rewrite String_length_pos.
  destruct (String.eqb_spec t ""); [contradiction|]. reflexivity.
Qed.

(** The text of an API error starts with the code and a colon. *)
Lemma ErrAPI_Error_head (e : ErrAPI) :
  exists rest, ErrAPI_Error e = Sprintf_d (Code e) ++ String ":" rest.
Proof.
  unfold ErrAPI_Error. destruct (0 <? String.length (ErrTypeName e))%nat;
    eexists; reflexivity.
Qed.

(** X17.  The HTTP code can always be read back from the text of an
    [ErrAPI]: API errors with the same text have the same code. *)
Theorem ErrAPI_Error_code (e1 e2 : ErrAPI) :
  ErrAPI_Error e1 = ErrAPI_Error e2 -> Code e1 = Code e2.
Proof.
  intros E.
  destruct (ErrAPI_Error_head e1) as [r1 H1].
  destruct (ErrAPI_Error_head e2) as [r2 H2].
  rewrite H1, H2 in E.
  apply split_at_char in E as [Ec _];
    [|now apply Sprintf_d_chars|now apply Sprintf_d_chars].
  now apply Sprintf_d_inj.
Qed.

(** X18.  Among API errors that all carry a type name, or all carry none,
    and whose type names hold no colon, [ErrAPI.Error] loses nothing. *)
Theorem ErrAPI_Error_inj (e1 e2 : ErrAPI) :
  (ErrTypeName e1 = "" <-> ErrTypeName e2 = "") ->
  has_char ":" (ErrTypeName e1) = false ->
  has_char ":" (ErrTypeName e2) = false ->
  ErrAPI_Error e1 = ErrAPI_Error e2 -> e1 = e2.
Proof.
  destruct e1 as [c1 m1 t1], e2 as [c2 m2 t2].
  cbn [ErrTypeName]. intros Hiff Ht1 Ht2 E.
  unfold ErrAPI_Error in E. cbn [Code Message ErrTypeName] in E.
  rewrite !String_length_pos in E.
  destruct (String.eqb_spec t1 "") as [->|N1],
           (String.eqb_spec t2 "") as [->|N2];
    cbn [negb] in E.
  - apply split_at_char in E as [Ec Em];
      [|now apply Sprintf_d_chars|now apply Sprintf_d_chars].
    apply Sprintf_d_inj in Ec. now subst.
  - exfalso. apply N2. now apply Hiff.
  - exfalso. apply N1. now apply Hiff.
  - apply split_at_char in E as [Ec E];
      [|now apply Sprintf_d_chars|now apply Sprintf_d_chars].
    apply Sprintf_d_inj in Ec.
    apply split_at_char in E as [Et Em]; [|assumption|assumption].
    now subst.
Qed.

Local Close Scope string_scope.

(** ** Further properties of the pulse code *)

Lemma spec_selector_bytes_names (names : list (list byte)) :
  spec_selector_bytes names [] = concat names.
Proof. induction names as [|n names IH]; cbn; [reflexivity | now rewrite IH]. Qed.

Lemma spec_selector_bytes_single (bytes : list byte) :
  spec_selector_bytes [bytes] [] = bytes.
Proof. cbn. apply app_nil_r. Qed.

(** An 11-byte pulse is the encoding of its key and of its raw minutes. *)
Lemma pulse_bytes (p : Pulse) :
  length p = PulseSize ->
  p = be_encode 8 (Key p) ++ be_encode 3 (raw_minutes p).
Proof.
  intros Hp.
  do 11 (destruct p as [|? p]; [discriminate Hp|]).
  destruct p; [|discriminate Hp].
  unfold Key. cbn [length Nat.eqb PulseSize negb take firstn].
  rewrite BigEndian_Uint64_eight, raw_minutes_be. unfold at_. cbn [nth].
  rewrite (be_encode_decode [_; _; _; _; _; _; _; _]).
  rewrite (be_encode_decode [_; _; _]). reflexivity.
Qed.

Section PulseExtras.

Variable RecordMaxPulseSpan : N.
Variable th64n : N -> N -> N.
Variable sha256_digest : list byte -> list byte.
Variable PrivateHash : Owner -> list byte.

(** The seed depends on the selectors through their bytes only. *)
Lemma pulse_seed_selector_bytes owner names1 ords1 names2 ords2 ts :
  spec_selector_bytes names1 ords1 = spec_selector_bytes names2 ords2 ->
  pulse_seed sha256_digest PrivateHash owner names1 ords1 ts
  = pulse_seed sha256_digest PrivateHash owner names2 ords2 ts.
Proof.
  intros E. unfold pulse_seed.
  rewrite !pulse_hasher_spec. unfold spec_seed_message. now rewrite E.
Qed.

Lemma NewPulse_selector_bytes owner names1 ords1 names2 ords2 ts m :
  spec_selector_bytes names1 ords1 = spec_selector_bytes names2 ords2 ->
  NewPulse RecordMaxPulseSpan th64n sha256_digest PrivateHash
    owner names1 ords1 ts m
  = NewPulse RecordMaxPulseSpan th64n sha256_digest PrivateHash
      owner names2 ords2 ts m.
Proof.
  intros E. unfold NewPulse.
  now rewrite (pulse_seed_selector_bytes owner _ _ _ _ ts E).
Qed.

(** X1.  [Minutes] never reports more than [RecordMaxPulseSpan], whatever
    the bytes and the length of the pulse; so [Token] never asks the chain
    for more than [RecordMaxPulseSpan] steps. *)
Theorem Minutes_le_span (p : Pulse) :
  Minutes RecordMaxPulseSpan p <= RecordMaxPulseSpan.
Proof.
  unfold Minutes.
  destruct (negb (length p =? PulseSize)%nat); [lia|]. cbv zeta.
  match goal with |- context [?a <? ?b] => destruct (N.ltb_spec a b) end;
    lia.
Qed.

(** X2.  Whatever the bytes, [Key] returns a 64-bit value and [Minutes] a
    24-bit value. *)
Theorem accessors_in_range (p : Pulse) :
  Key p < 2 ^ 64 /\ Minutes RecordMaxPulseSpan p < 2 ^ 24.
Proof.
  split.
  - unfold Key. destruct (negb (length p =? PulseSize)%nat);
      [reflexivity | apply BigEndian_Uint64_lt].
  - destruct (Nat.eq_dec (length p) PulseSize) as [Hp|Hp].
    + rewrite Minutes_eleven by assumption.
      pose proof (raw_minutes_lt p).
      destruct (N.ltb_spec RecordMaxPulseSpan (raw_minutes p)); lia.
    + unfold Minutes. apply Nat.eqb_neq in Hp. rewrite Hp. reflexivity.
Qed.

(** X3.  [NewPulse] returns a nil error together with an 11-byte pulse
    exactly when the owner has private key material and
    [minutes <= RecordMaxPulseSpan]. *)
Theorem NewPulse_succeeds_iff owner names ords ts m :
  (Private owner <> None /\ m <= RecordMaxPulseSpan)
  <-> (snd (NewPulse RecordMaxPulseSpan th64n sha256_digest PrivateHash
              owner names ords ts m) = None
       /\ length (fst (NewPulse RecordMaxPulseSpan th64n sha256_digest
                         PrivateHash owner names ords ts m)) = PulseSize).
Proof.
  split.
  - intros [Hk Hm]. rewrite NewPulse_success by assumption.
    cbn [fst snd]. split; [reflexivity|].
    rewrite length_app, !length_be_encode. reflexivity.
  - intros [He _].
    destruct (NewPulse RecordMaxPulseSpan th64n sha256_digest PrivateHash
                owner names ords ts m) as [p e] eqn:E.
    cbn [snd] in He. subst e.
    now apply NewPulse_returns_pulse in E.
Qed.

(** X4.  [NewPulse] reports [ErrPrivateKeyRequired] only for an owner
    without private key material, and always for such an owner: the key
    test comes first and the other sentinel is a different error. *)
Theorem NewPulse_private_key_required_iff owner names ords ts m :
  snd (NewPulse RecordMaxPulseSpan th64n sha256_digest PrivateHash
         owner names ords ts m) = Some ErrPrivateKeyRequired
  <-> Private owner = None.
Proof.
  unfold NewPulse. destruct (Private owner) as [k|].
  - destruct (RecordMaxPulseSpan <? m); cbn [snd];
      split; intros H; discriminate H.
  - cbn [snd]. split; reflexivity.
Qed.

(** X5.  Two 11-byte pulses whose raw minutes do not exceed
    [RecordMaxPulseSpan] and that have the same [Key] and the same
    [Minutes] are the same bytes. *)
Theorem pulse_determined_by_accessors (p q : Pulse) :
  length p = PulseSize -> length q = PulseSize ->
  raw_minutes p <= RecordMaxPulseSpan ->
  raw_minutes q <= RecordMaxPulseSpan ->
  Key p = Key q ->
  Minutes RecordMaxPulseSpan p = Minutes RecordMaxPulseSpan q ->
  p = q.
Proof.
  intros Hp Hq Rp Rq HK HM.
  rewrite !Minutes_eleven in HM by assumption.
  destruct (N.ltb_spec RecordMaxPulseSpan (raw_minutes p)); [lia|].
  destruct (N.ltb_spec RecordMaxPulseSpan (raw_minutes q)); [lia|].
  rewrite (pulse_bytes p Hp), (pulse_bytes q Hq). now rewrite HK, HM.
Qed.

(** X6.  A pulse whose raw minutes exceed [RecordMaxPulseSpan] is not told
    apart by the accessors from a different pulse: the one with the same
    chain-value bytes and raw minutes [RecordMaxPulseSpan] has the same
    [Key], [Minutes] and [Token]. *)
Theorem over_span_pulse_aliases (p : Pulse) :
  length p = PulseSize ->
  RecordMaxPulseSpan < raw_minutes p ->
  exists q,
    q <> p /\ length q = PulseSize
    /\ raw_minutes q = RecordMaxPulseSpan
    /\ Key q = Key p
    /\ Minutes RecordMaxPulseSpan q = Minutes RecordMaxPulseSpan p
    /\ Token RecordMaxPulseSpan th64n q = Token RecordMaxPulseSpan th64n p.
Proof.
  intros Hp Hover. pose proof (raw_minutes_lt p) as H24.
  pose proof Key_encoded as HK.
  exists (be_encode 8 (Key p) ++ be_encode 3 RecordMaxPulseSpan).
  assert (raw_minutes (be_encode 8 (Key p) ++ be_encode 3 RecordMaxPulseSpan)
          = RecordMaxPulseSpan) as Hraw.
  { rewrite raw_minutes_encoded. apply N.mod_small. lia. }
  assert (Key (be_encode 8 (Key p) ++ be_encode 3 RecordMaxPulseSpan) = Key p)
    as Hkey.
  { rewrite Key_encoded. apply N.mod_small.
    unfold Key. destruct (negb (length p =? PulseSize)%nat);
      [reflexivity | apply BigEndian_Uint64_lt]. }
  assert (Minutes RecordMaxPulseSpan
            (be_encode 8 (Key p) ++ be_encode 3 RecordMaxPulseSpan)
          = Minutes RecordMaxPulseSpan p) as Hmin.
  { rewrite Minutes_encoded by lia.
    rewrite Minutes_eleven by assumption.
    destruct (N.ltb_spec RecordMaxPulseSpan (raw_minutes p)); [reflexivity|lia]. }
  split; [|split; [|split; [|split; [|split]]]].
  - intros E. rewrite E in Hraw. lia.
  - rewrite length_app, !length_be_encode. reflexivity.
  - exact Hraw.
  - exact Hkey.
  - exact Hmin.
  - unfold Token. now rewrite Hkey, Hmin.
Qed.

(** X7.  For one record, the pulse of the larger minutes value hashes
    forward to the pulse of the smaller one: if [m1 <= m2 <=
    RecordMaxPulseSpan] then [th64n(Key(p2), m2 - m1) = Key(p1)]. *)
Theorem later_pulse_reaches_earlier owner names ords ts m1 m2 :
  Private owner <> None ->
  m1 <= m2 -> m2 <= RecordMaxPulseSpan ->
  RecordMaxPulseSpan < two64 ->
  chain_composes th64n -> chain_uint64 th64n ->
  exists p1 p2,
    NewPulse RecordMaxPulseSpan th64n sha256_digest PrivateHash
      owner names ords ts m1 = (p1, None)
    /\ NewPulse RecordMaxPulseSpan th64n sha256_digest PrivateHash
         owner names ords ts m2 = (p2, None)
    /\ th64n (Key p2) (m2 - m1) = Key p1.
Proof.
  intros Hk H12 H2 H64 Hcomp Hrange.
  do 2 eexists.
  split; [apply NewPulse_success; [assumption | lia]|].
  split; [apply NewPulse_success; [assumption | lia]|].
  rewrite !Key_encoded, !uint_sub_le by (try assumption; lia).
  rewrite !N.mod_small by now apply chain_value_lt.
  rewrite Hcomp. f_equal. lia.
Qed.

(** X8.  With [minutes = 0] the pulse carries the final hash of the chain:
    [Key(p) = th64n(S, RecordMaxPulseSpan)], and under the identity law
    [Token(p)] is that same value. *)
Theorem NewPulse_zero_minutes owner names ords ts :
  Private owner <> None ->
  RecordMaxPulseSpan < two64 ->
  chain_identity th64n -> chain_uint64 th64n ->
  exists p,
    NewPulse RecordMaxPulseSpan th64n sha256_digest PrivateHash
      owner names ords ts 0 = (p, None)
    /\ Minutes RecordMaxPulseSpan p = 0
    /\ Key p
       = th64n (pulse_seed sha256_digest PrivateHash owner names ords ts)
           RecordMaxPulseSpan
    /\ Token RecordMaxPulseSpan th64n p = Key p.
Proof.
  intros Hk H64 Hid Hrange.
  eexists. split; [apply NewPulse_success; [assumption | lia]|].
  assert (forall v, Minutes RecordMaxPulseSpan (be_encode 8 v ++ be_encode 3 0)
                    = 0) as Hmin.
  { intros v. apply Minutes_encoded; [lia | reflexivity]. }
  split; [apply Hmin|]. split.
  - rewrite Key_encoded, uint_sub_le by (try assumption; lia).
    rewrite N.sub_0_r. apply N.mod_small. now apply chain_value_lt.
  - unfold Token. rewrite Hmin. apply Hid.
Qed.

(** X9.  With [minutes = RecordMaxPulseSpan] the chain is not advanced at
    all: under the identity law the key of the pulse is the anchor seed
    itself. *)
Theorem NewPulse_full_span_key_is_seed owner names ords ts :
  Private owner <> None ->
  RecordMaxPulseSpan < two64 ->
  chain_identity th64n ->
  exists p,
    NewPulse RecordMaxPulseSpan th64n sha256_digest PrivateHash
      owner names ords ts RecordMaxPulseSpan = (p, None)
    /\ Key p = pulse_seed sha256_digest PrivateHash owner names ords ts.
Proof.
  intros Hk H64 Hid.
  eexists. split; [apply NewPulse_success; [assumption | lia]|].
  rewrite Key_encoded, uint_sub_le by (try assumption; lia).
  rewrite N.sub_diag, Hid. apply N.mod_small, pulse_seed_lt.
Qed.

(** X10.  Selector names are hashed without any framing: when no ordinals
    are given, two lists of names with the same concatenation give the same
    pulse and the same error. *)
Theorem NewPulse_names_concatenated owner names1 names2 ts m :
  concat names1 = concat names2 ->
  NewPulse RecordMaxPulseSpan th64n sha256_digest PrivateHash
    owner names1 [] ts m
  = NewPulse RecordMaxPulseSpan th64n sha256_digest PrivateHash
      owner names2 [] ts m.
Proof.
  intros E. apply NewPulse_selector_bytes.
  now rewrite !spec_selector_bytes_names.
Qed.

(** X11.  An ordinal is hashed as eight more bytes of its name: one selector
    with name [n] and ordinal [o] gives the same pulse and error as one
    selector without ordinal whose name is [n] followed by [o] as eight
    big-endian bytes (the bytes [PutUint64] writes). *)
Theorem NewPulse_ordinal_absorbed owner n o ts m :
  NewPulse RecordMaxPulseSpan th64n sha256_digest PrivateHash
    owner [n] [o] ts m
  = NewPulse RecordMaxPulseSpan th64n sha256_digest PrivateHash
      owner [n ++ take 8 (BigEndian_PutUint64 (repeat x00 8) o)] [] ts m.
Proof.
  apply NewPulse_selector_bytes.
  rewrite BigEndian_PutUint64_take by (cbn; lia).
  cbn [spec_selector_bytes]. now rewrite !app_nil_r.
Qed.

(** X12.  On any 11-byte buffer, [Key] reads back the 64-bit value that
    [PutUint64] wrote into its first eight bytes, and that write leaves
    [Minutes] as it was. *)
Theorem Key_after_PutUint64 (p : Pulse) (v : N) :
  length p = PulseSize ->
  Key (BigEndian_PutUint64 p v) = v mod 2 ^ 64
  /\ Minutes RecordMaxPulseSpan (BigEndian_PutUint64 p v)
     = Minutes RecordMaxPulseSpan p.
Proof.
  intros Hp.
  assert (length (BigEndian_PutUint64 p v) = PulseSize) as Hlen
    by now rewrite BigEndian_PutUint64_length.
  split.
  - unfold Key. rewrite Hlen. cbn [Nat.eqb PulseSize negb].
    rewrite BigEndian_PutUint64_take by (rewrite Hp; unfold PulseSize; lia).
    rewrite <- (app_nil_r (be_encode 8 v)). apply BigEndian_Uint64_encode.
  - rewrite !Minutes_eleven by assumption.
    assert (raw_minutes (BigEndian_PutUint64 p v) = raw_minutes p) as ->;
      [|reflexivity].
    rewrite BigEndian_PutUint64_spec by (rewrite Hp; unfold PulseSize; lia).
    do 11 (destruct p as [|? p]; [discriminate Hp|]).
    reflexivity.
Qed.

(** X13.  Writing the key of an 11-byte pulse back with [PutUint64] changes
    no byte. *)
Theorem PutUint64_Key_id (p : Pulse) :
  length p = PulseSize -> BigEndian_PutUint64 p (Key p) = p.
Proof.
  intros Hp.
  rewrite BigEndian_PutUint64_spec by (rewrite Hp; unfold PulseSize; lia).
  rewrite (pulse_bytes p Hp) at 3.
  f_equal.
  do 11 (destruct p as [|? p]; [discriminate Hp|]).
  destruct p; [|discriminate Hp].
  cbn [drop]. rewrite raw_minutes_be. unfold at_. cbn [nth].
  symmetry. apply (be_encode_decode [_; _; _]).
Qed.

(** X19.  Of the owner, [NewPulse] uses only the presence of private key
    material and the private hash: two owners that both hold a private key
    and have the same private hash get the same pulses. *)
Theorem NewPulse_owner_by_hash owner1 owner2 names ords ts m :
  Private owner1 <> None -> Private owner2 <> None ->
  PrivateHash owner1 = PrivateHash owner2 ->
  NewPulse RecordMaxPulseSpan th64n sha256_digest PrivateHash
    owner1 names ords ts m
  = NewPulse RecordMaxPulseSpan th64n sha256_digest PrivateHash
      owner2 names ords ts m.
Proof.
  intros H1 H2 Hh. unfold NewPulse.
  destruct (Private owner1); [|contradiction].
  destruct (Private owner2); [|contradiction].
  unfold pulse_seed, pulse_hasher. now rewrite Hh.
Qed.

(** X20.  When [NewPulse] fails, the pulse it returns is one the accessors
    read as zero: [Key] and [Minutes] are both 0 on it. *)
Theorem failed_pulse_reads_zero owner names ords ts m :
  snd (NewPulse RecordMaxPulseSpan th64n sha256_digest PrivateHash
         owner names ords ts m) <> None ->
  Key (fst (NewPulse RecordMaxPulseSpan th64n sha256_digest PrivateHash
              owner names ords ts m)) = 0
  /\ Minutes RecordMaxPulseSpan
       (fst (NewPulse RecordMaxPulseSpan th64n sha256_digest PrivateHash
               owner names ords ts m)) = 0.
Proof.
  unfold NewPulse. destruct (Private owner).
  - destruct (RecordMaxPulseSpan <? m); cbn [fst snd].
    + intros _. split; reflexivity.
    + intros H. now contradiction H.
  - intros _. split; reflexivity.
Qed.

End PulseExtras.

(** ** Closed instances of the further properties *)

Lemma pulse_determined_by_accessors_witness : in_span_pulse = in_span_pulse.
Proof.
  apply (pulse_determined_by_accessors one_year in_span_pulse in_span_pulse);
    try reflexivity; vm_compute; discriminate.
Defined.

Lemma over_span_pulse_aliases_witness :
  exists q,
    q <> over_span_pulse /\ length q = PulseSize
    /\ raw_minutes q = one_year
    /\ Key q = Key over_span_pulse
    /\ year_minutes q = year_minutes over_span_pulse
    /\ year_token q = year_token over_span_pulse.
Proof.
  apply (over_span_pulse_aliases one_year (iterate_chain mix64)
           over_span_pulse); reflexivity.
Defined.

Lemma later_pulse_reaches_earlier_witness :
  exists p1 p2,
    year_pulse signing_owner sample_names sample_ordinals sample_timestamp
      (one_year - 5) = (p1, None)
    /\ year_pulse signing_owner sample_names sample_ordinals sample_timestamp
         (one_year - 3) = (p2, None)
    /\ iterate_chain mix64 (Key p2) (one_year - 3 - (one_year - 5)) = Key p1.
Proof.
  apply (later_pulse_reaches_earlier one_year (iterate_chain mix64)
           pad_digest key_bytes signing_owner sample_names sample_ordinals
           sample_timestamp (one_year - 5) (one_year - 3)).
  - apply signing_owner_has_key.
  - vm_compute. discriminate.
  - vm_compute. discriminate.
  - reflexivity.
  - apply iterate_chain_composes.
  - apply year_chain_uint64.
Defined.

Lemma NewPulse_zero_minutes_witness :
  exists p,
    year_pulse signing_owner sample_names sample_ordinals sample_timestamp 0
    = (p, None)
    /\ year_minutes p = 0
    /\ Key p
       = iterate_chain mix64
           (year_seed signing_owner sample_names sample_ordinals
              sample_timestamp)
           one_year
    /\ year_token p = Key p.
Proof.
  apply (NewPulse_zero_minutes one_year (iterate_chain mix64) pad_digest
           key_bytes signing_owner sample_names sample_ordinals
           sample_timestamp).
  - apply signing_owner_has_key.
  - reflexivity.
  - apply iterate_chain_identity.
  - apply year_chain_uint64.
Defined.

Lemma NewPulse_full_span_key_is_seed_witness :
  exists p,
    year_pulse signing_owner sample_names sample_ordinals sample_timestamp
      one_year = (p, None)
    /\ Key p
       = year_seed signing_owner sample_names sample_ordinals
           sample_timestamp.
Proof.
  apply (NewPulse_full_span_key_is_seed one_year (iterate_chain mix64)
           pad_digest key_bytes signing_owner sample_names sample_ordinals
           sample_timestamp).
  - apply signing_owner_has_key.
  - reflexivity.
  - apply iterate_chain_identity.
Defined.

Lemma NewPulse_names_concatenated_witness :
  year_pulse signing_owner [[x61; x62]; [x63]] [] sample_timestamp
    (one_year - 3)
  = year_pulse signing_owner [[x61]; [x62; x63]] [] sample_timestamp
      (one_year - 3).
Proof.
  apply (NewPulse_names_concatenated one_year (iterate_chain mix64)
           pad_digest key_bytes signing_owner [[x61; x62]; [x63]]
           [[x61]; [x62; x63]]).
  reflexivity.
Defined.

Lemma Key_after_PutUint64_witness :
  Key (BigEndian_PutUint64 over_span_pulse 258) = 258 mod 2 ^ 64
  /\ year_minutes (BigEndian_PutUint64 over_span_pulse 258)
     = year_minutes over_span_pulse.
Proof.
  apply (Key_after_PutUint64 one_year over_span_pulse 258). reflexivity.
Defined.

Lemma PutUint64_Key_id_witness :
  BigEndian_PutUint64 in_span_pulse (Key in_span_pulse) = in_span_pulse.
Proof. apply (PutUint64_Key_id in_span_pulse). reflexivity. Defined.

Lemma ErrDatabase_Error_inj_witness :
  {| ErrCode := (-5)%Z; ErrMessage := "locked"%string |}
  = {| ErrCode := (-5)%Z; ErrMessage := "locked"%string |}.
Proof.
  apply (ErrDatabase_Error_inj
           {| ErrCode := (-5)%Z; ErrMessage := "locked"%string |}
           {| ErrCode := (-5)%Z; ErrMessage := "locked"%string |}).
  reflexivity.
Defined.

Lemma ErrAPI_Error_collision_witness :
  {| Code := 404%Z; Message := "gone"%string; ErrTypeName := "Err"%string |}
  <> {| Code := 404%Z; Message := "Err:gone"%string;
        ErrTypeName := ""%string |}
  /\ ErrAPI_Error
       {| Code := 404%Z; Message := "gone"%string;
          ErrTypeName := "Err"%string |}
     = ErrAPI_Error
         {| Code := 404%Z; Message := "Err:gone"%string;
            ErrTypeName := ""%string |}.
Proof.
  apply (ErrAPI_Error_collision 404%Z "Err"%string "gone"%string).
  discriminate.
Defined.

Lemma ErrAPI_Error_code_witness : 404%Z = 404%Z.
Proof.
  apply (ErrAPI_Error_code
           {| Code := 404%Z; Message := "gone"%string;
              ErrTypeName := "Err"%string |}
           {| Code := 404%Z; Message := "Err:gone"%string;
              ErrTypeName := ""%string |}).
  vm_compute. reflexivity.
Defined.

Lemma ErrAPI_Error_inj_witness :
  {| Code := 500%Z; Message := "a:b"%string; ErrTypeName := "Err"%string |}
  = {| Code := 500%Z; Message := "a:b"%string; ErrTypeName := "Err"%string |}.
Proof.
  apply (ErrAPI_Error_inj
           {| Code := 500%Z; Message := "a:b"%string;
              ErrTypeName := "Err"%string |}
           {| Code := 500%Z; Message := "a:b"%string;
              ErrTypeName := "Err"%string |});
    reflexivity.
Defined.

Lemma NewPulse_owner_by_hash_witness :
  year_pulse signing_owner sample_names sample_ordinals sample_timestamp
    (one_year - 3)
  = year_pulse {| Private := Some [x01; x02; x03]; Public := [xbb; xcc] |}
      sample_names sample_ordinals sample_timestamp (one_year - 3).
Proof.
  apply (NewPulse_owner_by_hash one_year (iterate_chain mix64) pad_digest
           key_bytes signing_owner
           {| Private := Some [x01; x02; x03]; Public := [xbb; xcc] |});
    [discriminate | discriminate | reflexivity].
Defined.

Lemma failed_pulse_reads_zero_witness :
  Key (fst (year_pulse public_owner sample_names sample_ordinals
              sample_timestamp 10)) = 0
  /\ year_minutes
       (fst (year_pulse public_owner sample_names sample_ordinals
               sample_timestamp 10)) = 0.
Proof.
  apply (failed_pulse_reads_zero one_year (iterate_chain mix64) pad_digest
           key_bytes public_owner sample_names sample_ordinals
           sample_timestamp 10).
  vm_compute. discriminate.
Defined.
